(** * translate.py: bulk literal substitution over a tree of Kotlin files

    A shallow embedding of [translate.py] and the properties of its
    substitution table, its per-file rewrite step, its walk over the
    directory tree and its report.

    Python values are modelled as follows.
    - [str]: the list of its Unicode code points ([list N]).
    - [dict]: the list of its items in insertion order (what [items()]
      iterates over since Python 3.7).
    - [pathlib.Path] below [base]: the list of path components.
    - the file system: a finite map from paths to what [read_text] and
      [write_text] do there, and a directory tree in listing order.
    - [print]: a list of output lines.
    - exceptions: a state-and-error monad in which the effects made before
      a raise are kept. *)

From Stdlib Require Import Decimal.
From stdpp Require Import base option list strings gmap fin_maps.

Local Open Scope N_scope.

(** ** Text *)

Abbreviation char := N (only parsing).
Abbreviation text := (list N) (only parsing).

Module Utf8.

Fixpoint bytes_of (s : string) : list N :=
  match s with
  | EmptyString => []
  | String a s' => Ascii.N_of_ascii a :: bytes_of s'
  end.

Definition cont (b : N) : N := N.land b 63.

(** Decoder for the literals of this file, which is encoded in UTF-8
    like the Python source. *)
Fixpoint decode (bs : text) : text :=
  match bs with
  | [] => []
  | b0 :: r0 =>
    if b0 <? 128 then b0 :: decode r0
    else if b0 <? 224 then
      match r0 with
      | b1 :: r1 =>
        N.lor (N.shiftl (N.land b0 31) 6) (cont b1) :: decode r1
      | _ => []
      end
    else if b0 <? 240 then
      match r0 with
      | b1 :: b2 :: r2 =>
        N.lor (N.shiftl (N.land b0 15) 12)
              (N.lor (N.shiftl (cont b1) 6) (cont b2)) :: decode r2
      | _ => []
      end
    else
      match r0 with
      | b1 :: b2 :: b3 :: r3 =>
        N.lor (N.shiftl (N.land b0 7) 18)
              (N.lor (N.shiftl (cont b1) 12)
                     (N.lor (N.shiftl (cont b2) 6) (cont b3))) :: decode r3
      | _ => []
      end
  end.

Definition lit (s : string) : text := decode (bytes_of s).

End Utf8.

Notation "'u' s" := (Utf8.lit s%string) (at level 9, s at level 0, only parsing).

(** [str(n)] for a natural number, as the f-string formats [len(updated)]. *)
Fixpoint digits (d : Decimal.uint) : text :=
  match d with
  | Nil => []
  | D0 d => 48 :: digits d
  | D1 d => 49 :: digits d
  | D2 d => 50 :: digits d
  | D3 d => 51 :: digits d
  | D4 d => 52 :: digits d
  | D5 d => 53 :: digits d
  | D6 d => 54 :: digits d
  | D7 d => 55 :: digits d
  | D8 d => 56 :: digits d
  | D9 d => 57 :: digits d
  end.

Definition str_of_nat (n : nat) : text := digits (Nat.to_uint n).

(** ** [str.replace] *)

(** [strip_prefix old s] is [Some rest] when [s = old ++ rest]. *)
Fixpoint strip_prefix (old s : text) : option text :=
  match old, s with
  | [], _ => Some s
  | a :: old', b :: s' => if a =? b then strip_prefix old' s' else None
  | _ :: _, [] => None
  end.

(** The scan of [s.replace(old, new)] for a non-empty [old]: at each
    position, a match is replaced and the scan resumes right after it;
    otherwise one character is copied.  Every step consumes a character of
    [s], so [length s] steps are enough ([replace_scan_fuel]). *)
Fixpoint replace_scan (fuel : nat) (old new s : text) : text :=
  match fuel with
  | O => s
  | S fuel' =>
    match strip_prefix old s with
    | Some rest => new ++ replace_scan fuel' old new rest
    | None =>
      match s with
      | [] => []
      | c :: s' => c :: replace_scan fuel' old new s'
      end
    end
  end.

(** [s.replace(old, new)].  With an empty [old], Python inserts [new]
    before every character and at the end. *)
Definition replace (s old new : text) : text :=
  match old with
  | [] => new ++ flat_map (fun c => c :: new) s
  | _ :: _ => replace_scan (length s) old new s
  end.

(** [old in s], on booleans. *)
Fixpoint occursb (old s : text) : bool :=
  match strip_prefix old s with
  | Some _ => true
  | None =>
    match s with
    | [] => false
    | _ :: s' => occursb old s'
    end
  end.

(** [old in s], as a proposition. *)
Definition occurs (old s : text) : Prop :=
  ∃ l r, s = l ++ old ++ r.

(** ** The substitution table *)

(** A dict literal: a key that comes again keeps its first position and
    takes the later value. *)
Fixpoint dict_set (d : list (text * text)) (k v : text) : list (text * text) :=
  match d with
  | [] => [(k, v)]
  | (k', v') :: d' =>
    if bool_decide (k' = k) then (k', v) :: d' else (k', v') :: dict_set d' k v
  end.

Definition dict_literal (kvs : list (text * text)) : list (text * text) :=
  fold_left (fun d kv => dict_set d kv.1 kv.2) kvs [].

Definition lits (kvs : list (string * string)) : list (text * text) :=
  map (fun kv => (Utf8.lit kv.1, Utf8.lit kv.2)) kvs.

Definition translations_literal : list (string * string) := [
    (* Status and state strings *)
    ("未同期", "Never synced");
    ("準備完了", "Ready");
    ("実行中", "Running");
    ("利用可能", "Available");
    ("エラー", "Error");
    ("成功", "Success");
    ("失敗", "Failed");
    ("警告", "Warning");
    ("完了", "Complete");
    ("読み込み中", "Loading");
    (* Time strings *)
    ("今日", "Today");
    ("昨日", "Yesterday");
    ("日前", " days ago");
    ("時間前", " hours ago");
    ("分前", " minutes ago");
    ("週間前", " weeks ago");
    ("ヶ月前", " months ago");
    ("1minutes以内", "Less than 1 minute ago");
    (* UI elements *)
    ("コンテナ管理", "Container Management");
    ("ダウンロード管理", "Download Manager");
    ("ゲーム追加", "Add Game");
    ("ゲーム詳細", "Game Details");
    ("設定", "Settings");
    ("ログイン", "Login");
    ("ログアウト", "Logout");
    ("同期", "Sync");
    ("認証", "Auth");
    ("保存", "Save");
    ("削除", "Delete");
    ("キャンセル", "Cancel");
    ("閉じる", "Close");
    ("確認", "Confirm");
    ("戻る", "Back");
    ("追加", "Add");
    ("編集", "Edit");
    ("更新", "Update");
    ("再試行", "Retry");
    ("検索", "Search");
    ("お気に入り", "Favorites");
    ("最近プレイしたゲーム", "Recently Played");
    ("インポートしたゲーム", "Imported Games");
    ("インポート", "Import");
    ("インストール", "Install");
    ("アンインストール", "Uninstall");
    ("起動", "Launch");
    ("振動", "Vibration");
    ("有効", "Enabled");
    ("無効", "Disabled");
    ("左スティック", "Left Stick");
    ("右スティック", "Right Stick");
    ("トリガー", "Trigger");
    ("テスト", "Test");
    ("最近プレイした", "Recently Played");
    ("お気に入りのゲーム", "Favorite Games");
    ("インポート済み", "Imported");
    ("免責事項", "Disclaimer");
    ("注意事項", "Notes");
    ("同意する", "I Agree");
    ("同意しない", "Disagree");
    ("完了済みクリア", "Clear Completed");
    ("進行中", "In Progress");
    ("ダウンロード履歴なし", "No download history");
    ("一時停止", "Pause");
    ("再開", "Resume");
    ("コンテナ", "Container");
    ("コンテナがありません", "No containers");
    ("新しいコンテナを作成", "Create New Container");
    ("コンテナ名", "Container Name");
    ("コンテナ名を入力してください", "Enter container name");
    ("コンテナを削除", "Delete Container");
    ("この操作は取り消せません", "This action cannot be undone");
    ("作成", "Create");
    ("サイズ", "Size");
    ("ゲーム情報", "Game Info");
    ("プレイ時間", "Play Time");
    ("最終プレイ日時", "Last Played");
    ("ソース", "Source");
    ("ファイルパス", "File Paths");
    ("実行ファイル", "Executable");
    ("インストールパス", "Install Path");
    ("Steam情報", "Steam Info");
    ("ゲームを起動中", "Launching game");
    ("ゲームを起動できません", "Cannot launch game");
    ("直接起動", "Direct Launch");
    ("Steam経由で起動", "Launch via Steam");
    ("Steamクライアントを開く", "Open Steam Client");
    ("設定を開く", "Open Settings");
    ("未インストール", "Not Installed");
    ("未設定", "Not Set");
    ("コントローラー設定", "Controller Settings");
    ("コントローラーが検出されません", "No controller detected");
    ("デフォルトに戻す", "Reset to default");
    ("デッドゾーン", "Deadzone");
    ("テスト成功", "Test Successful");
    ("不明なエラー", "Unknown error");
    ("検索エラー", "Search error");
    ("ゲームが既に存在します", "Game already exists");
    ("同期を開始しています", "Starting sync");
    ("同期中", "Syncing");
    ("API Keyを入力してください", "Please enter API Key");
    ("無効なAPI Keyです", "Invalid API Key");
    ("API Keyを保存しました", "API Key saved");
    ("Steam設定をクリアしました", "Steam Settings cleared");
    ("クリアに失敗しました", "Clear failed");
    ("Steam Clientがインストールされていません", "Steam Client is not installed");
    ("インストール状態の確認に失敗しました", "Failed to check installation status");
    ("予期しないエラーが発生しました", "Unexpected error occurred");
    ("Steam Clientを起動しました", "Steam Client launched");
    ("Steam Clientがアンインストールされました", "Steam Client has been uninstalled");
    ("アンインストールに失敗しました", "Uninstall failed");
    ("Winlator初期化", "Winlator initialization");
    ("Winlatorを初期化中", "Initializing Winlator");
    ("初期化に失敗しました", "Initialization failed");
    ("初期化中にエラーが発生しました", "Error occurred during initialization");
    ("コントローラー", "Controller")
  ]%string.

Definition translations : list (text * text) :=
  dict_literal (lits translations_literal).

(** The inner loop: [for jp, en in translations.items():
    content = content.replace(jp, en)]. *)
Definition apply_table (table : list (text * text)) (content : text) : text :=
  fold_left (fun content rule => replace content rule.1 rule.2) table content.

Definition transform (content : text) : text := apply_table translations content.

(** No pattern of the table occurs in [s]. *)
Definition pattern_free (table : list (text * text)) (s : text) : bool :=
  forallb (fun rule => negb (occursb rule.1 s)) table.

Arguments Utf8.lit : simpl never.
Arguments translations : simpl never.
Arguments transform : simpl never.
Arguments str_of_nat : simpl never.

(** ** Paths and the file system *)

Abbreviation path := (list (list N)) (only parsing).

(** [f.name]: the final path component. *)
Definition name (f : path) : text := default [] (last f).

Definition base_str : text :=
  u"app/src/main/java/com/steamdeck/mobile/presentation".

(** [str(f)] for a path below [base]. *)
Definition path_str (f : path) : text :=
  base_str ++ flat_map (fun c => u"/" ++ c) f.

(** A file as the program sees it: what [read_text] returns or raises
    (the message of the exception: permission, decoding, ...) and whether
    opening it for writing raises. *)
Record file := File {
  read_result : text + text;
  write_error : option text
}.

(** The files: what is at each path. *)
Abbreviation filesystem := (gmap (list (list N)) file) (only parsing).

Inductive result (A : Type) : Type :=
| Ok (a : A)
| Raise (e : text).
Arguments Ok {A} a.
Arguments Raise {A} e.

(** The state of a run: the files, the global list [updated], the lines
    printed so far, and (a ghost field) the calls of [write_text] so far,
    which are the only places where a file is opened for writing. *)
Record state := State {
  fs : filesystem;
  updated : list text;
  stdout : list text;
  written : list (path * text)
}.

Definition set_fs (m : filesystem) (st : state) : state :=
  State m (updated st) (stdout st) (written st).
Definition add_updated (x : text) (st : state) : state :=
  State (fs st) (updated st ++ [x]) (stdout st) (written st).
Definition add_stdout (x : text) (st : state) : state :=
  State (fs st) (updated st) (stdout st ++ [x]) (written st).
Definition add_written (f : path) (data : text) (st : state) : state :=
  State (fs st) (updated st) (stdout st) (written st ++ [(f, data)]).

(** Computations that read and change the state and may raise; what was
    done before a raise stays done. *)
Definition M (A : Type) : Type := state → result A * state.

#[export] Instance M_ret : MRet M := λ A a st, (Ok a, st).
#[export] Instance M_bind : MBind M := λ A B k c st,
  match c st with
  | (Ok a, st') => k a st'
  | (Raise e, st') => (Raise e, st')
  end.

Definition raise {A} (e : text) : M A := λ st, (Raise e, st).

(** [try: c except Exception as e: h e]. *)
Definition try_except {A} (c : M A) (h : text → M A) : M A := λ st,
  match c st with
  | (Ok a, st') => (Ok a, st')
  | (Raise e, st') => h e st'
  end.

Fixpoint for_each {A} (l : list A) (body : A → M unit) : M unit :=
  match l with
  | [] => mret tt
  | x :: l' => body x ;; for_each l' body
  end.

Definition print (line : text) : M unit := λ st, (Ok tt, add_stdout line st).

Definition get_updated : M (list text) := λ st, (Ok (updated st), st).

Definition append_updated (x : text) : M unit := λ st, (Ok tt, add_updated x st).

Definition no_such_file (f : path) : text :=
  u"[Errno 2] No such file or directory: '" ++ path_str f ++ u"'".

(** [f.read_text(encoding="utf-8")]. *)
Definition read_text (f : path) : M text := λ st,
  match fs st !! f with
  | Some fl =>
    match read_result fl with
    | inr content => (Ok content, st)
    | inl e => (Raise e, st)
    end
  | None => (Raise (no_such_file f), st)
  end.

(** [f.write_text(data, encoding="utf-8")]: the file is opened for
    writing, which raises on a file that cannot be written (the file is
    then as it was) and otherwise replaces the content.  A write that
    fails half way is not modelled. *)
Definition write_text (f : path) (data : text) : M unit := λ st,
  let st := add_written f data st in
  match fs st !! f with
  | Some fl =>
    match write_error fl with
    | Some e => (Raise e, st)
    | None => (Ok tt, set_fs (<[f := File (inr data) None]> (fs st)) st)
    end
  | None => (Ok tt, set_fs (<[f := File (inr data) None]> (fs st)) st)
  end.

(** ** The program *)

(** The body of the [try]. *)
Definition body (f : path) : M unit :=
  content ← read_text f;
  let original := content in
  let content := transform content in
  if bool_decide (content ≠ original) then
    write_text f content ;;
    append_updated (name f)
  else mret tt.

(** One iteration of [for f in base.rglob("*.kt")]. *)
Definition iteration (f : path) : M unit :=
  try_except (body f) (λ e, print (u"Error " ++ name f ++ u": " ++ e)).

Definition report : M unit :=
  upd ← get_updated;
  print (u"Updated " ++ str_of_nat (length upd) ++ u" files") ;;
  for_each upd (λ f, print (u"  - " ++ f)).

(** The program, given the sequence of paths that [rglob] yields. *)
Definition main_from (files : list path) : M unit :=
  for_each files iteration ;;
  report.

Definition init (store : filesystem) : state := State store [] [] [].

(** ** The walk *)

(** A directory tree, each directory with its entries in the order in
    which the operating system lists them.  A directory that cannot be
    listed has [listable = false].  Symbolic links, which [rglob] does
    not follow into directories, are left out. *)
#[warnings="-register-all"]
Inductive entry : Type :=
| EFile (nm : text)
| EDir (nm : text) (listable : bool) (entries : list entry).

Definition entry_name (e : entry) : text :=
  match e with
  | EFile nm => nm
  | EDir nm _ _ => nm
  end.

(** The glob pattern [*.kt] on a name (of a file or of a directory), with
    the case as it is. *)
Definition is_kt (nm : text) : bool :=
  bool_decide (u".kt" `suffix_of` nm).

(** The entries of one directory that match, in listing order. *)
Definition select (d : path) (es : list entry) : list path :=
  map (λ e, d ++ [entry_name e]) (filter (λ e, is_kt (entry_name e) = true) es).

(** [rglob] below the directory [e] whose path is [d]: the matches of the
    directory itself, then those of each subdirectory in listing order.
    A directory that cannot be listed yields nothing and raises nothing,
    as pathlib suppresses the error. *)
Fixpoint walk (d : path) (e : entry) : list path :=
  match e with
  | EFile _ => []
  | EDir _ false _ => []
  | EDir _ true es =>
    select d es ++ flat_map (λ c, walk (d ++ [entry_name c]) c) es
  end.

(** [base.rglob("*.kt")]. *)
Definition rglob (base : entry) : list path := walk [] base.

Definition main (base : entry) : M unit := main_from (rglob base).

(** The state in which the program ends. *)
Definition run (base : entry) (store : filesystem) : state :=
  (main base (init store)).2.

Definition run_from (files : list path) (store : filesystem) : state :=
  (main_from files (init store)).2.

(** ** Outcomes

    What an iteration does, as a function of the file it meets.  The
    program is related to these definitions by [iteration_outcome]. *)

(** What happens to one file, read off the files alone. *)
Inductive outcome : Type :=
| Unchanged
| Rewritten (data : text)
| ReadFailed (e : text)
| WriteFailed (data e : text).

Definition classify (f : path) (o : option file) : outcome :=
  match o with
  | None => ReadFailed (no_such_file f)
  | Some fl =>
    match read_result fl with
    | inl e => ReadFailed e
    | inr original =>
      if bool_decide (transform original ≠ original) then
        match write_error fl with
        | Some e => WriteFailed (transform original) e
        | None => Rewritten (transform original)
        end
      else Unchanged
    end
  end.

Definition outcome_of (store : filesystem) (f : path) : outcome :=
  classify f (store !! f).

Definition diagnostic (nm e : text) : text := u"Error " ++ nm ++ u": " ++ e.

Definition updated_of (nm : text) (o : outcome) : list text :=
  match o with
  | Rewritten _ => [nm]
  | _ => []
  end.

Definition stdout_of (nm : text) (o : outcome) : list text :=
  match o with
  | ReadFailed e | WriteFailed _ e => [diagnostic nm e]
  | _ => []
  end.

Definition written_of (f : path) (o : outcome) : list (path * text) :=
  match o with
  | Rewritten data | WriteFailed data _ => [(f, data)]
  | _ => []
  end.

Definition fs_of (f : path) (o : outcome) (m : filesystem) :
    filesystem :=
  match o with
  | Rewritten data => <[f := File (inr data) None]> m
  | _ => m
  end.

Definition effect (f : path) (o : outcome) (st : state) : state :=
  State (fs_of f o (fs st))
        (updated st ++ updated_of (name f) o)
        (stdout st ++ stdout_of (name f) o)
        (written st ++ written_of f o).

Definition step (st : state) (f : path) : state := (iteration f st).2.

Definition count_line (upd : list text) : text :=
  u"Updated " ++ str_of_nat (length upd) ++ u" files".

Definition entry_line (f : text) : text := u"  - " ++ f.



(** The contents with which [write_text] was called on [f], in order. *)
Definition data_written (f : path) (st : state) : list text :=
  (filter (λ w, w.1 = f) (written st)).*2.

(** ** Trees and orders *)


(** Induction on a tree with the hypothesis for every entry of a
    directory. *)
Definition entry_rect_nested (P : entry → Prop)
    (Hfile : ∀ nm, P (EFile nm))
    (Hdir : ∀ nm listable es, Forall P es → P (EDir nm listable es)) :
    ∀ e, P e :=
  fix go (e : entry) : P e :=
    match e with
    | EFile nm => Hfile nm
    | EDir nm listable es =>
      Hdir nm listable es
        ((fix all (es : list entry) : Forall P es :=
            match es with
            | [] => @List.Forall_nil entry P
            | c :: es' => @List.Forall_cons entry P c es' (go c) (all es')
            end) es)
    end.


(** Comparison of two texts code point by code point, as Python compares
    [str] values. *)
Fixpoint lex_leb (a b : text) : bool :=
  match a, b with
  | [], _ => true
  | _ :: _, [] => false
  | x :: a', y :: b' =>
    if x <? y then true else if x =? y then lex_leb a' b' else false
  end.

Fixpoint sortedb (l : list text) : bool :=
  match l with
  | [] => true
  | x :: l' =>
    match l' with
    | [] => true
    | y :: _ => lex_leb x y && sortedb l'
    end
  end.

(** ** Example files and trees *)

(** The text on which a second application still finds a pattern: the
    rule for ["API Keyを入力してください"] puts ["API Key"] in front of a
    second ["を入力してください"]. *)
Definition twice_text : text := u"API Keyを入力してくださいを入力してください".

Definition twice_file : path := [u"ui"; u"Settings.kt"].

Definition twice_store : filesystem :=
  {[ twice_file := File (inr twice_text) None ]}.

Definition ready_text : text := u"val s = 準備完了".

Definition home_kt : path := [u"home"; u"HomeScreen.kt"].
Definition plain_kt : path := [u"home"; u"Plain.kt"].

Definition two_store : filesystem :=
  <[ home_kt := File (inr (u"Text(準備完了)")) None ]>
    {[ plain_kt := File (inr (u"val n = 1")) None ]}.

Definition first_kt : path := [u"home"; u"First.kt"].
Definition broken_kt : path := [u"settings"; u"Broken.kt"].
Definition last_kt : path := [u"settings"; u"Last.kt"].

Definition decode_error : text :=
  u"'utf-8' codec can't decode byte 0xff in position 0: invalid start byte".


(** Three files, the second of which cannot be decoded. *)
Definition three_store : filesystem :=
  <[ first_kt := File (inr (u"Text(設定)")) None ]>
  (<[ broken_kt := File (inl decode_error) None ]>
    {[ last_kt := File (inr (u"Text(保存)")) None ]}).

Definition other_store : filesystem :=
  <[ last_kt := File (inr (u"Text(設定)")) None ]>
    {[ plain_kt := File (inl decode_error) None ]}.




Definition unsorted_tree : entry :=
  EDir [] true [EFile (u"Settings.kt"); EFile (u"Home.kt")].

Definition sorted_tree : entry :=
  EDir [] true [EFile (u"Home.kt"); EFile (u"Settings.kt")].

Definition flat_store : filesystem :=
  <[ [u"Settings.kt"] := File (inr (u"Text(設定)")) None ]>
    {[ [u"Home.kt"] := File (inr (u"Text(今日)")) None ]}.

Definition nested_tree : entry :=
  EDir [] true [EDir (u"home") true [EFile (u"Home.kt")]; EFile (u"theme.kt")].



Definition locked_store : filesystem :=
  <[ [u"secret"; u"Hidden.kt"] := File (inr (u"Text(設定)")) None ]>
    {[ [u"home"; u"Home.kt"] := File (inr (u"Text(今日)")) None ]}.

(** ** Characters, shadowed rules and reachable paths *)

Definition is_ascii (c : N) : bool := c <? 128.

Definition ascii_only (s : text) : bool := forallb is_ascii s.

(** The characters of a text that are not ASCII, in order. *)
Definition foreign (s : text) : text := filter (λ c, is_ascii c = false) s.

(** A text that is not empty and has no ASCII character. *)
Definition all_foreign (p : text) : bool :=
  match p with
  | [] => false
  | _ :: _ => forallb (λ c, negb (is_ascii c)) p
  end.

(** What every rule of the embedded table satisfies: the pattern has a
    character that is not ASCII, the replacement is ASCII and not empty. *)
Definition rule_ok (rule : text * text) : bool :=
  negb (ascii_only rule.1)
  && match rule.2 with [] => false | _ :: _ => ascii_only rule.2 end.

Definition rules_ok (table : list (text * text)) : bool := forallb rule_ok table.

(** Every pattern that occurs in the pattern of a later rule has no ASCII
    character. *)
Fixpoint shadows_foreign (seen : list text) (table : list (text * text)) : bool :=
  match table with
  | [] => true
  | rule :: table' =>
    forallb (λ k, implb (occursb k rule.1) (all_foreign k)) seen
    && shadows_foreign (rule.1 :: seen) table'
  end.

(** [p] leads, from the directory [e], through directories that can be
    listed to an entry whose name matches [*.kt]. *)
Fixpoint reachable (e : entry) (p : path) : bool :=
  match e, p with
  | EDir _ true es, n :: q =>
    existsb (λ c, bool_decide (entry_name c = n)
                  && match q with
                     | [] => is_kt n
                     | _ :: _ => reachable c q
                     end) es
  | _, _ => false
  end.

Definition mixed_tree : entry :=
  EDir [] true
    [EFile (u"README.md");
     EDir (u"home") true [EFile (u"Home.kt"); EFile (u"notes.txt")];
     EDir (u"secret") false [EFile (u"Hidden.kt")]].

Definition mixed_store : filesystem :=
  <[ [u"README.md"] := File (inr (u"設定")) None ]>
  (<[ [u"home"; u"Home.kt"] := File (inr (u"Text(設定)")) None ]>
  (<[ [u"home"; u"notes.txt"] := File (inr (u"設定")) None ]>
    {[ [u"secret"; u"Hidden.kt"] := File (inr (u"Text(設定)")) None ]})).

(** * Properties *)

(** ** [str.replace] *)

Section Replace.

Implicit Types old new s rest : text.

Lemma strip_prefix_Some old s rest :
  strip_prefix old s = Some rest ↔ s = old ++ rest.
Proof.
  revert s. induction old as [|a old IH]; intros s; simpl.
  - split; [by intros [= ->] | by intros ->].
  - destruct s as [|b s]; [done|].
    destruct (N.eqb_spec a b) as [->|Hne].
    + rewrite IH. split; [by intros -> | by intros [= ->]].
    + split; [done | by intros [= -> _]].
Qed.

Lemma strip_prefix_app old rest : strip_prefix old (old ++ rest) = Some rest.
Proof. by apply strip_prefix_Some. Qed.

Lemma strip_prefix_length old s rest :
  strip_prefix old s = Some rest → length s = (length old + length rest)%nat.
Proof. intros ->%strip_prefix_Some. by rewrite length_app. Qed.

Lemma strip_prefix_None_absent old s :
  strip_prefix old s = None → ∀ rest, s ≠ old ++ rest.
Proof.
  intros H rest Heq. apply strip_prefix_Some in Heq. congruence.
Qed.

Lemma occursb_spec old s : occursb old s = true ↔ occurs old s.
Proof.
  induction s as [|c s IH]; simpl.
  - destruct (strip_prefix old []) as [rest|] eqn:E.
    + split; [|done]. intros _. apply strip_prefix_Some in E.
      by exists [], rest.
    + split; [done|]. intros (l & r & Heq).
      destruct l; [|done]. simpl in Heq.
      by apply strip_prefix_None_absent with (rest := r) in E.
  - destruct (strip_prefix old (c :: s)) as [rest|] eqn:E.
    + split; [|done]. intros _. apply strip_prefix_Some in E.
      by exists [], rest.
    + rewrite IH. split.
      * intros (l & r & ->). by exists (c :: l), r.
      * intros (l & r & Heq). destruct l as [|c' l].
        { by apply strip_prefix_None_absent with (rest := r) in E. }
        injection Heq as -> ->. by exists l, r.
Qed.

Lemma occursb_false old s : occursb old s = false ↔ ¬ occurs old s.
Proof.
  rewrite <- occursb_spec. by destruct (occursb old s).
Qed.

Lemma occurs_cons old c s : occurs old s → occurs old (c :: s).
Proof. intros (l & r & ->). by exists (c :: l), r. Qed.

Lemma occurs_prefix old rest : occurs old (old ++ rest).
Proof. by exists [], rest. Qed.

Lemma replace_scan_nil fuel old new :
  old ≠ [] → replace_scan fuel old new [] = [].
Proof. destruct fuel, old; done. Qed.

(** More fuel than the length of the text changes nothing. *)
Lemma replace_scan_fuel fuel old new s :
  old ≠ [] → (length s ≤ fuel)%nat →
  replace_scan fuel old new s = replace_scan (length s) old new s.
Proof.
  intros Hold. revert s.
  induction (lt_wf fuel) as [fuel _ IH]. intros s Hlen.
  destruct fuel as [|fuel].
  { by destruct s; [|simpl in Hlen; lia]. }
  destruct s as [|c s]; [by destruct old|].
  cbn [replace_scan length].
  destruct (strip_prefix old (c :: s)) as [rest|] eqn:E.
  - pose proof (strip_prefix_length _ _ _ E) as HL. cbn [length] in HL.
    assert (length old ≠ 0%nat) by by destruct old.
    cbn [length] in Hlen.
    rewrite (IH fuel) by lia.
    by rewrite (IH (length s)) by lia.
  - cbn [length] in Hlen. rewrite (IH fuel) by lia. done.
Qed.

(** The two equations of the scan, free of fuel. *)
Lemma replace_match old new rest :
  old ≠ [] → replace (old ++ rest) old new = new ++ replace rest old new.
Proof.
  intros Hold. unfold replace. destruct old as [|a old]; [done|].
  cbn [app length replace_scan].
  change (a :: old ++ rest) with ((a :: old) ++ rest).
  rewrite strip_prefix_app. f_equal.
  apply replace_scan_fuel; [done|]. rewrite length_app. lia.
Qed.

Lemma replace_skip old new c s :
  old ≠ [] → strip_prefix old (c :: s) = None →
  replace (c :: s) old new = c :: replace s old new.
Proof.
  intros Hold E. unfold replace. destruct old as [|a old]; [done|].
  cbn [length replace_scan]. by rewrite E.
Qed.

Lemma replace_nil old new : old ≠ [] → replace [] old new = [].
Proof. by destruct old. Qed.

(** A text in which the pattern does not occur stays as it is. *)
Lemma replace_absent s old new : ¬ occurs old s → replace s old new = s.
Proof.
  intros Hno.
  assert (old ≠ []) as Hold.
  { intros ->. apply Hno. by exists [], s. }
  induction s as [|c s IH]; [by apply replace_nil|].
  destruct (strip_prefix old (c :: s)) as [rest|] eqn:E.
  - apply strip_prefix_Some in E. exfalso. apply Hno.
    rewrite E. apply occurs_prefix.
  - rewrite replace_skip by done. f_equal. apply IH.
    intros H. by apply Hno, occurs_cons.
Qed.

(** Replacing a text that is the whole pattern gives the replacement. *)
Lemma replace_self s new : replace s s new = new.
Proof.
  destruct s as [|c s]; [by unfold replace; simpl; rewrite app_nil_r|].
  rewrite <- (app_nil_r (c :: s)) at 1.
  rewrite replace_match by done.
  by rewrite replace_nil, app_nil_r.
Qed.

Lemma apply_table_cons rule table s :
  apply_table (rule :: table) s = apply_table table (replace s rule.1 rule.2).
Proof. done. Qed.

Lemma pattern_free_spec table s :
  pattern_free table s = true ↔ ∀ rule, rule ∈ table → ¬ occurs rule.1 s.
Proof.
  unfold pattern_free. rewrite forallb_forall. split.
  - intros H rule Hin. apply occursb_false.
    apply list_elem_of_In, H in Hin. by destruct (occursb rule.1 s).
  - intros H rule Hin. apply list_elem_of_In, H, occursb_false in Hin.
    by rewrite Hin.
Qed.

(** A text in which no pattern of the table occurs is left as it is
    by the whole table. *)
Lemma apply_table_pattern_free table s :
  pattern_free table s = true → apply_table table s = s.
Proof.
  induction table as [|rule table IH]; [done|].
  intros H. unfold pattern_free in H. cbn [forallb] in H.
  apply andb_true_iff in H as [Hr Ht]. rewrite apply_table_cons.
  rewrite replace_absent; [by apply IH|].
  apply occursb_false. by destruct (occursb rule.1 s).
Qed.

End Replace.

(** Closed decidable facts, by evaluation. *)
Ltac by_compute :=
  match goal with
  | |- ?P => apply (bool_decide_unpack P); vm_compute; exact I
  end.

(** ** One file *)

Lemma state_eta st : State (fs st) (updated st) (stdout st) (written st) = st.
Proof. by destruct st. Qed.

(** An iteration never raises, and does to the state what the outcome of
    its file says. *)
Lemma iteration_outcome f st :
  iteration f st = (Ok tt, effect f (outcome_of (fs st) f) st).
Proof.
  unfold iteration, try_except, body, outcome_of, classify, effect.
  unfold mbind, M_bind, read_text.
  destruct (fs st !! f) as [fl|] eqn:Hf; cbn.
  - destruct (read_result fl) as [e|original] eqn:Hr; cbn.
    + unfold print, add_stdout. by rewrite !app_nil_r.
    + case_bool_decide as Hc; cbn.
      * unfold write_text. cbn. rewrite Hf.
        destruct (write_error fl) as [e|]; cbn.
        -- unfold print, add_stdout, add_written. cbn.
           by rewrite !app_nil_r.
        -- unfold append_updated, add_updated, set_fs, add_written. cbn.
           by rewrite !app_nil_r.
      * unfold mret, M_ret. rewrite !app_nil_r. by rewrite state_eta.
  - unfold print, add_stdout. by rewrite !app_nil_r.
Qed.

(** ** The loop *)

Lemma for_each_iteration files st :
  for_each files iteration st = (Ok tt, foldl step st files).
Proof.
  revert st. induction files as [|f files IH]; intros st; [done|].
  cbn [for_each foldl]. unfold mbind, M_bind.
  unfold step at 2. rewrite iteration_outcome. cbn. apply IH.
Qed.

Lemma step_effect st f : step st f = effect f (outcome_of (fs st) f) st.
Proof. unfold step. by rewrite iteration_outcome. Qed.

(** A failure in one file does not end the loop: the files after it are
    processed from the state the failed iteration leaves. *)
Lemma loop_app before after st :
  foldl step st (before ++ after) = foldl step (foldl step st before) after.
Proof. apply foldl_app. Qed.

(** An iteration changes no file but its own. *)
Lemma step_fs_other st f g : g ≠ f → fs (step st f) !! g = fs st !! g.
Proof.
  intros Hne. rewrite step_effect. cbn.
  destruct (outcome_of (fs st) f); cbn; try done.
  by rewrite lookup_insert_ne.
Qed.

Lemma loop_fs_other files st g : g ∉ files → fs (foldl step st files) !! g = fs st !! g.
Proof.
  revert st. induction files as [|f files IH]; intros st Hg; [done|].
  apply not_elem_of_cons in Hg as [Hne Hg]. cbn.
  rewrite IH by done. by apply step_fs_other.
Qed.

(** The loop over distinct paths, in terms of the files at the start. *)
Lemma loop_outcomes files store st :
  NoDup files → (∀ f, f ∈ files → fs st !! f = store !! f) →
  updated (foldl step st files) =
    updated st ++ flat_map (λ f, updated_of (name f) (outcome_of store f)) files
  ∧ stdout (foldl step st files) =
    stdout st ++ flat_map (λ f, stdout_of (name f) (outcome_of store f)) files
  ∧ written (foldl step st files) =
    written st ++ flat_map (λ f, written_of f (outcome_of store f)) files.
Proof.
  intros Hnd. revert st. induction Hnd as [|f files Hnotin Hnd IH]; intros st Hfs.
  { cbn. by rewrite !app_nil_r. }
  cbn [foldl flat_map].
  assert (outcome_of (fs st) f = outcome_of store f) as Ho.
  { unfold outcome_of. rewrite Hfs; [done | by left]. }
  destruct (IH (step st f)) as (IHu & IHs & IHw).
  { intros g Hg. rewrite step_fs_other.
    - apply Hfs. by right.
    - intros ->. done. }
  rewrite IHu, IHs, IHw, step_effect, Ho. cbn.
  by rewrite !(assoc_L (++)).
Qed.

(** ** The report *)

Lemma for_each_print {A} (l : list A) (line : A → text) st :
  for_each l (λ x, print (line x)) st =
    (Ok tt, State (fs st) (updated st) (stdout st ++ map line l) (written st)).
Proof.
  revert st. induction l as [|x l IH]; intros st.
  - cbn. unfold mret, M_ret. by rewrite app_nil_r, state_eta.
  - cbn [for_each map]. unfold mbind, M_bind. unfold print at 1.
    rewrite IH. cbn. by rewrite <- (assoc_L (++)).
Qed.

Lemma report_spec st :
  report st =
    (Ok tt, State (fs st) (updated st)
              (stdout st ++ count_line (updated st) :: map entry_line (updated st))
              (written st)).
Proof.
  unfold report, mbind, M_bind, get_updated. unfold print at 1. cbn.
  rewrite (for_each_print _ entry_line). cbn.
  by rewrite <- (assoc_L (++)).
Qed.

Lemma main_from_spec files st :
  main_from files st =
    let st' := foldl step st files in
    (Ok tt, State (fs st') (updated st')
              (stdout st' ++ count_line (updated st') :: map entry_line (updated st'))
              (written st')).
Proof.
  unfold main_from, mbind, M_bind. rewrite for_each_iteration.
  by rewrite report_spec.
Qed.

(** ** The substitution table *)

(** The literal has no key twice: the dict holds its pairs as written. *)
Lemma translations_items : translations = lits translations_literal.
Proof. vm_compute. reflexivity. Qed.

Lemma apply_table_app table1 table2 s :
  apply_table (table1 ++ table2) s = apply_table table2 (apply_table table1 s).
Proof. apply fold_left_app. Qed.

(** C1.  The rules are applied one after the other, each to the text the
    previous one produced.  With the table [(A→B), (B→C)] the text [A]
    becomes [C]; with the table [(B→C), (A→B)] it becomes [B], for texts
    such that [B] does not occur in [A]; the two orders differ when
    [B] is not [C].  The texts ["A"], ["B"] and ["C"] of the claim are
    such texts. *)
Theorem order_sensitivity (A B C : text) :
  ¬ occurs B A → B ≠ C →
  (∀ rule table s,
     apply_table (rule :: table) s = apply_table table (replace s rule.1 rule.2))
  ∧ apply_table [(A, B); (B, C)] A = C
  ∧ apply_table [(B, C); (A, B)] A = B
  ∧ apply_table [(A, B); (B, C)] A ≠ apply_table [(B, C); (A, B)] A.
Proof.
  intros Hno Hne.
  assert (apply_table [(A, B); (B, C)] A = C) as H1.
  { rewrite !apply_table_cons. cbn [fst snd apply_table fold_left].
    by rewrite !replace_self. }
  assert (apply_table [(B, C); (A, B)] A = B) as H2.
  { rewrite !apply_table_cons. cbn [fst snd apply_table fold_left].
    by rewrite (replace_absent A B C), replace_self. }
  split; [done|]. split; [done|]. split; [done|].
  rewrite H1, H2. congruence.
Qed.

(** The literal case: the tables over ["A"], ["B"] and ["C"]. *)
Lemma order_sensitivity_ABC :
  ¬ occurs (u"B") (u"A") ∧ u"B" ≠ u"C"
  ∧ apply_table [(u"A", u"B"); (u"B", u"C")] (u"A") = u"C"
  ∧ apply_table [(u"B", u"C"); (u"A", u"B")] (u"A") = u"B"
  ∧ apply_table [(u"A", u"B"); (u"B", u"C")] (u"A")
    ≠ apply_table [(u"B", u"C"); (u"A", u"B")] (u"A").
Proof.
  assert (¬ occurs (u"B") (u"A")) as Hno.
  { apply occursb_false. vm_compute. reflexivity. }
  assert (u"B" ≠ u"C") as Hne.
  { vm_compute. discriminate. }
  split; [exact Hno|]. split; [exact Hne|].
  exact (proj2 (order_sensitivity (u"A") (u"B") (u"C") Hno Hne)).
Defined.

(** C4.  Within one rule the matches do not overlap: the rule
    ["aa" → r] on ["aaa"] replaces the first two characters once and
    leaves the third, giving [r + "a"]. *)
Theorem non_overlap (r : text) :
  replace (u"aaa") (u"aa") r = r ++ u"a".
Proof.
  change (u"aaa") with ([97; 97] ++ [97]).
  change (u"aa") with [97; 97].
  rewrite replace_match by done.
  rewrite replace_skip by done.
  by rewrite replace_nil.
Qed.

(** C3, as stated, fails.  On [twice_text] the second application changes
    the text again, and a second run over the output of the first reports
    the file once more. *)
Lemma idempotence_fails :
  transform twice_text = u"Please enter API Keyを入力してください"
  ∧ transform (transform twice_text) = u"Please enter Please enter API Key"
  ∧ ¬ (∀ t, transform (transform t) = transform t)
  ∧ updated (run_from [twice_file] (fs (run_from [twice_file] twice_store)))
    = [u"Settings.kt"].
Proof.
  assert (transform twice_text = u"Please enter API Keyを入力してください") as H1.
  { vm_compute. reflexivity. }
  assert (transform (transform twice_text)
          = u"Please enter Please enter API Key") as H2.
  { vm_compute. reflexivity. }
  split; [exact H1|]. split; [exact H2|]. split.
  - intros H. specialize (H twice_text). rewrite H2, H1 in H.
    vm_compute in H. discriminate.
  - vm_compute. reflexivity.
Qed.

(** A loop over files none of which is rewritten leaves the files, the
    list [updated] and the log of writes as they were. *)
Lemma loop_nothing_rewritten files st :
  (∀ f, f ∈ files → written_of f (outcome_of (fs st) f) = []) →
  fs (foldl step st files) = fs st
  ∧ updated (foldl step st files) = updated st
  ∧ written (foldl step st files) = written st.
Proof.
  revert st. induction files as [|f files IH]; intros st H; [done|].
  cbn [foldl].
  assert (written_of f (outcome_of (fs st) f) = []) as Hf by (apply H; by left).
  assert (fs (step st f) = fs st ∧ updated (step st f) = updated st
          ∧ written (step st f) = written st) as (Hfs & Hu & Hw).
  { rewrite step_effect. cbn.
    destruct (outcome_of (fs st) f); cbn in *; try done;
      by rewrite ?app_nil_r. }
  destruct (IH (step st f)) as (IH1 & IH2 & IH3).
  { intros g Hg. rewrite Hfs. apply H. by right. }
  by rewrite IH1, IH2, IH3.
Qed.

Lemma classify_pattern_free f fl original :
  read_result fl = inr original →
  pattern_free translations original = true →
  classify f (Some fl) = Unchanged.
Proof.
  intros Hr Hp. unfold classify. rewrite Hr.
  unfold transform. rewrite apply_table_pattern_free by done.
  by rewrite bool_decide_false by (intros H; by apply H).
Qed.

(** C3, amended.  When no pattern occurs in the transformed text, a second
    application changes nothing; and a run over files in which no pattern
    occurs (such as the output of a first run in that situation) reports
    zero changed files and writes nothing. *)
Theorem idempotent_when_pattern_free :
  (∀ t : text,
     pattern_free translations (transform t) = true →
     transform (transform t) = transform t)
  ∧ (∀ (files : list path) (store : filesystem),
       (∀ f fl content, f ∈ files → store !! f = Some fl →
          read_result fl = inr content →
          pattern_free translations content = true) →
       updated (run_from files store) = []
       ∧ written (run_from files store) = []
       ∧ fs (run_from files store) = store
       ∧ last (stdout (run_from files store)) = Some (u"Updated 0 files")).
Proof.
  split.
  - intros t H. by apply apply_table_pattern_free.
  - intros files store H. unfold run_from. rewrite main_from_spec. cbn.
    destruct (loop_nothing_rewritten files (init store)) as (H1 & H2 & H3).
    { intros f Hf. cbn. unfold outcome_of.
      destruct (store !! f) as [fl|] eqn:Hs; [|done].
      destruct (read_result fl) as [e|content] eqn:Hr.
      - unfold classify. by rewrite Hr.
      - by rewrite (classify_pattern_free f fl content) by eauto. }
    rewrite H1, H2, H3. cbn. split; [done|]. split; [done|]. split; [done|].
    by rewrite last_snoc.
Qed.

(** The scenario of one rule's worth of text: after [準備完了] has become
    [Ready] nothing is left to replace. *)
Lemma idempotent_when_pattern_free_ready :
  pattern_free translations (transform ready_text) = true
  ∧ transform (transform ready_text) = transform ready_text
  ∧ updated (run_from [twice_file]
               {[ twice_file := File (inr (transform ready_text)) None ]}) = [].
Proof.
  assert (pattern_free translations (transform ready_text) = true) as Hp.
  { vm_compute. reflexivity. }
  split; [exact Hp|]. split.
  - exact (proj1 idempotent_when_pattern_free ready_text Hp).
  - refine (proj1 (proj2 idempotent_when_pattern_free [twice_file] _ _)).
    intros f fl content Hf Hs Hr.
    apply list_elem_of_singleton in Hf. subst f.
    rewrite lookup_singleton_eq in Hs. apply (inj Some) in Hs. subst fl.
    cbn [read_result] in Hr. apply (inj inr) in Hr. subst content. exact Hp.
Defined.

(** ** Persistence *)

Lemma step_unchanged st f : outcome_of (fs st) f = Unchanged → step st f = st.
Proof.
  intros H. rewrite step_effect, H. unfold effect. cbn.
  by rewrite !app_nil_r, state_eta.
Qed.

(** Only walked files are opened for writing. *)
Lemma loop_written files st g data :
  (g, data) ∈ written (foldl step st files) →
  (g, data) ∈ written st ∨ g ∈ files.
Proof.
  revert st. induction files as [|f files IH]; intros st H; [by left|].
  cbn [foldl] in H. apply IH in H as [H|H]; [|right; by right].
  rewrite step_effect in H. cbn in H.
  apply elem_of_app in H as [H|H]; [by left|]. right.
  destruct (outcome_of (fs st) f); cbn in H;
    try (by apply elem_of_nil in H);
    apply list_elem_of_singleton in H; injection H as -> ->; by left.
Qed.

(** A file that the program leaves unchanged could as well not be walked. *)
Lemma loop_skip_unchanged f files st :
  outcome_of (fs st) f = Unchanged →
  foldl step st files = foldl step st (filter (λ g, g ≠ f) files).
Proof.
  revert st. induction files as [|g files IH]; intros st H; [done|].
  destruct (decide (g = f)) as [->|Hne].
  - rewrite filter_cons_False by (intros Hf; by apply Hf).
    cbn [foldl]. rewrite step_unchanged by done. by apply IH.
  - rewrite filter_cons_True by done. cbn [foldl]. apply IH.
    unfold outcome_of in *. by rewrite step_fs_other.
Qed.

(** C2.  In the iteration of a file that was read, [write_text] is called
    if and only if the transformed content differs from the original, and
    then with the transformed content, which a write that does not fail
    leaves in the file.  Otherwise the iteration changes nothing at all.
    A file in which no pattern occurs is in the second case: in a loop
    over any files it keeps its content, no [write_text] is called on it,
    and the loop ends in the state in which it ends without that file, so
    the file adds nothing to the report. *)
Theorem persisted_iff_changed (f : path) (st : state) (fl : file)
    (original : text) :
  fs st !! f = Some fl → read_result fl = inr original →
  (written (step st f) ≠ written st ↔ transform original ≠ original)
  ∧ (transform original ≠ original →
       written (step st f) = written st ++ [(f, transform original)]
       ∧ (write_error fl = None →
            fs (step st f) !! f = Some (File (inr (transform original)) None)
            ∧ updated (step st f) = updated st ++ [name f]))
  ∧ (transform original = original → step st f = st)
  ∧ (pattern_free translations original = true →
       step st f = st
       ∧ ∀ files : list path,
           foldl step st files = foldl step st (filter (λ g, g ≠ f) files)
           ∧ fs (foldl step st files) !! f = Some fl
           ∧ ∀ data, (f, data) ∈ written (foldl step st files) →
                     (f, data) ∈ written st).
Proof.
  intros Hf Hr.
  assert (transform original = original → outcome_of (fs st) f = Unchanged)
    as Hsame.
  { intros Heq. unfold outcome_of, classify. rewrite Hf, Hr.
    by rewrite bool_decide_false by (intros H; by apply H). }
  assert (transform original ≠ original →
          written (step st f) = written st ++ [(f, transform original)]
          ∧ (write_error fl = None →
               fs (step st f) !! f = Some (File (inr (transform original)) None)
               ∧ updated (step st f) = updated st ++ [name f])) as Hdiff.
  { intros Hne. rewrite step_effect. unfold outcome_of, classify.
    rewrite Hf, Hr. rewrite bool_decide_true by done.
    destruct (write_error fl) as [e|]; cbn; [done|].
    split; [done|]. intros _. by rewrite lookup_insert_eq. }
  split; [|split; [done|split]].
  - split.
    + intros Hw Heq. apply Hw. by rewrite step_unchanged by auto.
    + intros Hne Heq. destruct (Hdiff Hne) as [Hw _]. rewrite Hw in Heq.
      apply (f_equal length) in Heq. rewrite length_app in Heq.
      cbn in Heq. lia.
  - intros Heq. apply step_unchanged. auto.
  - intros Hp.
    assert (transform original = original) as Heq.
    { by apply apply_table_pattern_free. }
    split; [apply step_unchanged; auto|]. intros files.
    pose proof (loop_skip_unchanged f files st (Hsame Heq)) as Hskip.
    split; [done|].
    assert (f ∉ filter (λ g, g ≠ f) files) as Hnotin.
    { intros [Hne _]%list_elem_of_filter. by apply Hne. }
    split.
    + rewrite Hskip, loop_fs_other by done. done.
    + intros data Hin. rewrite Hskip in Hin.
      apply loop_written in Hin as [Hin|Hin]; [exact Hin|].
      exfalso. exact (Hnotin Hin).
Qed.

(** A file without Japanese text next to one with it. *)
Lemma persisted_iff_changed_plain :
  two_store !! plain_kt = Some (File (inr (u"val n = 1")) None)
  ∧ pattern_free translations (u"val n = 1") = true
  ∧ step (init two_store) plain_kt = init two_store
  ∧ foldl step (init two_store) [home_kt; plain_kt]
    = foldl step (init two_store) [home_kt].
Proof.
  assert (fs (init two_store) !! plain_kt
          = Some (File (inr (u"val n = 1")) None)) as Hf.
  { vm_compute. reflexivity. }
  assert (pattern_free translations (u"val n = 1") = true) as Hp.
  { vm_compute. reflexivity. }
  pose proof (persisted_iff_changed plain_kt (init two_store) _ _ Hf eq_refl)
    as (_ & _ & _ & H).
  destruct (H Hp) as [Hstep Hloop].
  split; [exact Hf|]. split; [exact Hp|]. split; [exact Hstep|].
  exact (proj1 (Hloop [home_kt; plain_kt])).
Defined.

(** ** Distinct paths *)


Lemma elem_of_flat_map {A B} (h : A → list B) (l : list A) (y : B) :
  y ∈ flat_map h l ↔ ∃ x, x ∈ l ∧ y ∈ h x.
Proof.
  rewrite list_elem_of_In, in_flat_map. split.
  - intros (x & Hx & Hy). exists x. by rewrite !list_elem_of_In.
  - intros (x & Hx & Hy). exists x. by rewrite <- !list_elem_of_In.
Qed.





(** ** Failures *)






(** ** The report *)



(** The run over distinct paths, in terms of the files at the start. *)
Lemma run_from_outcomes files store :
  NoDup files →
  updated (run_from files store)
  = flat_map (λ f, updated_of (name f) (outcome_of store f)) files
  ∧ stdout (run_from files store)
  = flat_map (λ f, stdout_of (name f) (outcome_of store f)) files
    ++ count_line (updated (run_from files store))
    :: map entry_line (updated (run_from files store))
  ∧ written (run_from files store)
  = flat_map (λ f, written_of f (outcome_of store f)) files.
Proof.
  intros Hnd. unfold run_from. rewrite main_from_spec. cbn.
  destruct (loop_outcomes files store (init store) Hnd) as (Hu & Hs & Hw);
    [done|].
  cbn in Hu, Hs, Hw. by rewrite Hu, Hs, Hw.
Qed.

Lemma run_rglob base store : run base store = run_from (rglob base) store.
Proof. reflexivity. Qed.



(** ** Independence of the files *)

Lemma written_of_filter_absent store files f :
  f ∉ files →
  filter (λ w, w.1 = f) (flat_map (λ g, written_of g (outcome_of store g)) files)
  = [].
Proof.
  induction files as [|g files IH]; [done|].
  intros [Hne Hnotin]%not_elem_of_cons. cbn [flat_map].
  rewrite filter_app, IH by done. rewrite app_nil_r.
  destruct (outcome_of store g); cbn [written_of]; try done;
    by rewrite filter_cons_False by (cbn; congruence).
Qed.

Lemma written_of_filter store files f :
  NoDup files → f ∈ files →
  filter (λ w, w.1 = f) (flat_map (λ g, written_of g (outcome_of store g)) files)
  = written_of f (outcome_of store f).
Proof.
  induction 1 as [|g files Hnotin Hnd IH]; [by intros ?%elem_of_nil|].
  intros Hin. cbn [flat_map]. rewrite filter_app.
  destruct (decide (f = g)) as [->|Hne].
  - rewrite written_of_filter_absent by done. rewrite app_nil_r.
    destruct (outcome_of store g); cbn [written_of]; try done;
      by rewrite filter_cons_True by done.
  - apply elem_of_cons in Hin as [Hin|Hin]; [done|].
    rewrite IH by done.
    destruct (outcome_of store g); cbn [written_of]; try done;
      by rewrite filter_cons_False by (cbn; congruence).
Qed.

Lemma loop_fs_at files store st f :
  NoDup files → (∀ g, g ∈ files → fs st !! g = store !! g) → f ∈ files →
  fs (foldl step st files) !! f = fs_of f (outcome_of store f) (fs st) !! f.
Proof.
  intros Hnd. revert st.
  induction Hnd as [|g files Hnotin Hnd IH]; intros st Hfs Hin.
  { by apply elem_of_nil in Hin. }
  cbn [foldl]. destruct (decide (f = g)) as [->|Hne].
  - rewrite loop_fs_other by done. rewrite step_effect. cbn.
    unfold outcome_of. rewrite Hfs; [done | by left].
  - apply elem_of_cons in Hin as [Hin|Hin]; [done|].
    rewrite IH; [| |done].
    + destruct (outcome_of store f); cbn [fs_of];
        rewrite ?lookup_insert_eq; try done; by apply step_fs_other.
    + intros h Hh. rewrite step_fs_other.
      * apply Hfs. by right.
      * intros ->. done.
Qed.

Lemma fs_run_from files store :
  fs (run_from files store) = fs (foldl step (init store) files).
Proof. unfold run_from. by rewrite main_from_spec. Qed.

(** What the run does to one readable file, among distinct walked paths. *)
Lemma run_from_file files store f fl original :
  NoDup files → f ∈ files →
  store !! f = Some fl → read_result fl = inr original →
  data_written f (run_from files store)
  = (if bool_decide (transform original ≠ original)
     then [transform original] else [])
  ∧ (write_error fl = None →
     read_result <$> fs (run_from files store) !! f
     = Some (inr (transform original))).
Proof.
  intros Hnd Hin Hf Hr.
  destruct (run_from_outcomes files store Hnd) as (_ & _ & Hw).
  assert (outcome_of store f = classify f (Some fl)) as Ho.
  { unfold outcome_of. by rewrite Hf. }
  split.
  - unfold data_written. rewrite Hw, written_of_filter, Ho by done.
    unfold classify. rewrite Hr.
    case_bool_decide; [|done]. by destruct (write_error fl).
  - intros Hwr. rewrite fs_run_from.
    rewrite (loop_fs_at files store) by done.
    rewrite Ho. unfold classify. rewrite Hr, Hwr.
    case_bool_decide as Hc; cbn [fs_of].
    + by rewrite lookup_insert_eq.
    + cbn [init fs]. rewrite Hf. cbn. by rewrite Hr, Hc.
Qed.

(** C7.  For two runs over distinct walked paths, whatever the other
    files are and whatever happens to them, two files with the same
    original content are transformed alike: [write_text] is called with
    the same content (the table applied to the original, and only when
    that differs from the original), and a file that can be written ends
    with the table applied to its original content. *)
Theorem pure_transform (files1 files2 : list path)
    (store1 store2 : filesystem)
    (f g : path) (fl1 fl2 : file) (original : text) :
  NoDup files1 → NoDup files2 → f ∈ files1 → g ∈ files2 →
  store1 !! f = Some fl1 → store2 !! g = Some fl2 →
  read_result fl1 = inr original → read_result fl2 = inr original →
  data_written f (run_from files1 store1)
  = data_written g (run_from files2 store2)
  ∧ data_written f (run_from files1 store1)
    = (if bool_decide (transform original ≠ original)
       then [transform original] else [])
  ∧ (write_error fl1 = None → write_error fl2 = None →
     read_result <$> fs (run_from files1 store1) !! f
     = Some (inr (transform original))
     ∧ read_result <$> fs (run_from files2 store2) !! g
       = Some (inr (transform original))).
Proof.
  intros Hnd1 Hnd2 Hin1 Hin2 Hf Hg Hr1 Hr2.
  pose proof (run_from_file files1 store1 f fl1 original Hnd1 Hin1 Hf Hr1)
    as [Hw1 Hc1].
  pose proof (run_from_file files2 store2 g fl2 original Hnd2 Hin2 Hg Hr2)
    as [Hw2 Hc2].
  split; [rewrite Hw1, Hw2; reflexivity|]. split; [exact Hw1|].
  intros H1 H2. split; [exact (Hc1 H1) | exact (Hc2 H2)].
Qed.

(** The same content in two files of two runs. *)
Lemma pure_transform_two_runs :
  NoDup [first_kt; broken_kt; last_kt] ∧ NoDup [plain_kt; last_kt]
  ∧ data_written first_kt (run_from [first_kt; broken_kt; last_kt] three_store)
    = data_written last_kt (run_from [plain_kt; last_kt] other_store)
  ∧ data_written first_kt (run_from [first_kt; broken_kt; last_kt] three_store)
    = [u"Text(Settings)"].
Proof.
  assert (NoDup [first_kt; broken_kt; last_kt]) as Hnd1.
  { by_compute. }
  assert (NoDup [plain_kt; last_kt]) as Hnd2.
  { by_compute. }
  assert (first_kt ∈ [first_kt; broken_kt; last_kt]) as Hin1.
  { by_compute. }
  assert (last_kt ∈ [plain_kt; last_kt]) as Hin2.
  { by_compute. }
  assert (three_store !! first_kt = Some (File (inr (u"Text(設定)")) None))
    as Hf.
  { vm_compute. reflexivity. }
  assert (other_store !! last_kt = Some (File (inr (u"Text(設定)")) None))
    as Hg.
  { vm_compute. reflexivity. }
  pose proof (pure_transform _ _ _ _ _ _ _ _ (u"Text(設定)")
                Hnd1 Hnd2 Hin1 Hin2 Hf Hg eq_refl eq_refl) as (H1 & H2 & _).
  split; [exact Hnd1|]. split; [exact Hnd2|]. split; [exact H1|].
  rewrite H2. vm_compute. reflexivity.
Defined.

(** ** Base names *)





(** ** The walk *)





(** The report follows the walk. *)
Lemma loop_updated_sublist files st :
  ∃ l, updated (foldl step st files) = updated st ++ l
       ∧ l `sublist_of` map name files.
Proof.
  revert st. induction files as [|f files IH]; intros st.
  { exists []. by rewrite app_nil_r. }
  cbn [foldl map]. destruct (IH (step st f)) as (l & -> & Hl).
  rewrite step_effect. cbn [effect updated].
  exists (updated_of (name f) (outcome_of (fs st) f) ++ l).
  split; [by rewrite (assoc_L (++))|].
  destruct (outcome_of (fs st) f); cbn [updated_of app];
    first [by apply sublist_skip | by apply sublist_cons].
Qed.

(** C8, as stated, fails.  The walk follows the order in which a
    directory lists its entries, which need not be sorted: two listings
    of the same two files give two walks and two reports.  Even with
    sorted listings the matches of a directory come before those of its
    subdirectories, so that [theme.kt] comes before [home/Home.kt]. *)
Lemma walk_not_lexicographic :
  rglob unsorted_tree = [[u"Settings.kt"]; [u"Home.kt"]]
  ∧ sortedb (map path_str (rglob unsorted_tree)) = false
  ∧ stdout (run unsorted_tree flat_store)
    = [u"Updated 2 files"; u"  - Settings.kt"; u"  - Home.kt"]
  ∧ stdout (run sorted_tree flat_store)
    = [u"Updated 2 files"; u"  - Home.kt"; u"  - Settings.kt"]
  ∧ rglob nested_tree = [[u"theme.kt"]; [u"home"; u"Home.kt"]]
  ∧ sortedb (map path_str (rglob nested_tree)) = false.
Proof. repeat split; vm_compute; reflexivity. Qed.

(** C8, amended.  The walk is a function of the tree with its listing
    orders: a directory gives its matching entries in listing order, then
    what each of its subdirectories gives, in listing order.  The report
    follows the walk: the entries of [updated] are base names of walked
    files, in the order of the walk. *)
Theorem report_in_walk_order (base : entry) (store : filesystem) :
  updated (run base store) `sublist_of` map name (rglob base)
  ∧ (∀ d nm es,
       walk d (EDir nm true es)
       = map (λ e, d ++ [entry_name e])
           (filter (λ e, is_kt (entry_name e) = true) es)
         ++ flat_map (λ c, walk (d ++ [entry_name c]) c) es)
  ∧ (∀ d nm es1 es2,
       walk d (EDir nm true (es1 ++ es2))
       = select d es1 ++ select d es2
         ++ flat_map (λ c, walk (d ++ [entry_name c]) c) es1
         ++ flat_map (λ c, walk (d ++ [entry_name c]) c) es2).
Proof.
  split; [|split].
  - rewrite run_rglob. unfold run_from. rewrite main_from_spec. cbn.
    destruct (loop_updated_sublist (rglob base) (init store)) as (l & -> & Hl).
    done.
  - done.
  - intros d nm es1 es2. cbn [walk]. unfold select.
    by rewrite filter_app, map_app, flat_map_app, <- !(assoc_L (++)).
Qed.



(** * Further properties *)

(** ** Characters *)

(** Induction along the scan of [replace]. *)
Lemma replace_ind (P : text → text → Prop) (old new : text) :
  old ≠ [] →
  P [] [] →
  (∀ rest, P rest (replace rest old new) →
           P (old ++ rest) (new ++ replace rest old new)) →
  (∀ c s, strip_prefix old (c :: s) = None →
          P s (replace s old new) → P (c :: s) (c :: replace s old new)) →
  ∀ s, P s (replace s old new).
Proof.
  intros Hold Hnil Hmatch Hskip s.
  remember (length s) as n eqn:Hn. revert s Hn.
  induction (lt_wf n) as [n _ IH]. intros s ->.
  destruct s as [|c s]; [by rewrite replace_nil|].
  destruct (strip_prefix old (c :: s)) as [rest|] eqn:E.
  - apply strip_prefix_Some in E. rewrite E, replace_match by done.
    apply Hmatch. apply (IH (length rest)); [|done].
    rewrite E, length_app. destruct old; [done|]. cbn. lia.
  - rewrite replace_skip by done. apply Hskip; [done|].
    apply (IH (length s)); [cbn; lia | done].
Qed.

Lemma foreign_app s t : foreign (s ++ t) = foreign s ++ foreign t.
Proof. apply filter_app. Qed.

Lemma foreign_ascii s : ascii_only s = true → foreign s = [].
Proof.
  induction s as [|c s IH]; [done|]. cbn [ascii_only forallb].
  intros [Hc Hs]%andb_true_iff. unfold foreign.
  rewrite filter_cons_False by (rewrite Hc; discriminate). by apply IH.
Qed.

Lemma foreign_cons_sublist c s t :
  foreign s `sublist_of` foreign t → foreign (c :: s) `sublist_of` foreign (c :: t).
Proof.
  intros H. unfold foreign. destruct (is_ascii c) eqn:Hc.
  - rewrite !filter_cons_False by (rewrite Hc; discriminate). exact H.
  - rewrite !filter_cons_True by exact Hc. by apply sublist_skip.
Qed.

Lemma foreign_cons c s :
  foreign (c :: s) = (if is_ascii c then [] else [c]) ++ foreign s.
Proof.
  unfold foreign. destruct (is_ascii c) eqn:Hc.
  - by rewrite filter_cons_False by (rewrite Hc; discriminate).
  - by rewrite filter_cons_True by exact Hc.
Qed.

(** A replacement by an ASCII text adds no character that is not ASCII. *)
Lemma foreign_replace s old new :
  ascii_only new = true → foreign (replace s old new) `sublist_of` foreign s.
Proof.
  intros Hnew. destruct old as [|a old].
  - unfold replace. rewrite foreign_app, (foreign_ascii new) by done.
    cbn [app]. induction s as [|c s IH]; [done|]. cbn [flat_map app].
    rewrite !foreign_cons, foreign_app, (foreign_ascii new) by done.
    cbn [app]. by apply sublist_app.
  - apply (replace_ind (λ s r, foreign r `sublist_of` foreign s)); [done|done| |].
    + intros rest IH. rewrite (foreign_app new), (foreign_app (a :: old)).
      rewrite (foreign_ascii new) by done.
      cbn [app]. by apply sublist_inserts_l.
    + intros c t _ IH. by apply foreign_cons_sublist.
Qed.

Lemma occurs_cons_inv old c s :
  occurs old (c :: s) → strip_prefix old (c :: s) = None → occurs old s.
Proof.
  intros (l & r & Heq) Hno. destruct l as [|c' l].
  - by apply strip_prefix_None_absent with (rest := r) in Hno.
  - injection Heq as -> ->. by exists l, r.
Qed.

(** A replacement that takes place removes a character that is not
    ASCII, when the pattern has one and the replacement has none. *)
Lemma foreign_replace_lt s old new :
  ascii_only new = true → ascii_only old = false → occurs old s →
  (length (foreign (replace s old new)) < length (foreign s))%nat.
Proof.
  intros Hnew Hold.
  assert (old ≠ []) as Hne by (intros ->; discriminate).
  assert (foreign old ≠ []) as Hf.
  { intros Hf. clear Hne. induction old as [|a old IH]; [discriminate|].
    cbn [ascii_only forallb] in Hold. unfold foreign in Hf.
    destruct (is_ascii a) eqn:Ha.
    - rewrite filter_cons_False in Hf by (rewrite Ha; discriminate).
      apply IH; [exact Hold | exact Hf].
    - rewrite filter_cons_True in Hf by exact Ha. discriminate. }
  apply (replace_ind (λ s r, occurs old s →
           (length (foreign r) < length (foreign s))%nat)); [done| | |].
  - intros (l & r & Heq). destruct l, old; discriminate.
  - intros rest _ _. rewrite (foreign_app new), (foreign_app old).
    rewrite (foreign_ascii new) by done.
    cbn [app]. rewrite length_app.
    pose proof (sublist_length _ _ (foreign_replace rest old new Hnew)).
    destruct (foreign old); [done|]. cbn [length]. lia.
  - intros c t Hno IH Hocc. apply occurs_cons_inv in Hocc; [|done].
    specialize (IH Hocc). unfold foreign in *. destruct (is_ascii c) eqn:Hc.
    + rewrite !filter_cons_False by (rewrite Hc; discriminate). exact IH.
    + rewrite !filter_cons_True by exact Hc. cbn [length]. lia.
Qed.

Lemma rules_ok_cons rule table :
  rules_ok (rule :: table) = true →
  (ascii_only rule.1 = false ∧ rule.2 ≠ [] ∧ ascii_only rule.2 = true)
  ∧ rules_ok table = true.
Proof.
  cbn [rules_ok forallb]. intros [Hr Ht]%andb_true_iff. split; [|exact Ht].
  unfold rule_ok in Hr. apply andb_true_iff in Hr as [H1 H2].
  apply negb_true_iff in H1. by destruct rule.2.
Qed.

Lemma foreign_apply_table table s :
  rules_ok table = true → foreign (apply_table table s) `sublist_of` foreign s.
Proof.
  revert s. induction table as [|rule table IH]; intros s Hok; [done|].
  apply rules_ok_cons in Hok as [(_ & _ & Hnew) Hok].
  rewrite apply_table_cons. etrans; [by apply IH|]. by apply foreign_replace.
Qed.

Lemma pattern_free_cons rule table s :
  pattern_free (rule :: table) s = negb (occursb rule.1 s) && pattern_free table s.
Proof. done. Qed.

Lemma apply_table_removes table s :
  rules_ok table = true → pattern_free table s = false →
  (length (foreign (apply_table table s)) < length (foreign s))%nat.
Proof.
  revert s. induction table as [|rule table IH]; intros s Hok Hp; [done|].
  apply rules_ok_cons in Hok as [(Hold & _ & Hnew) Hok].
  rewrite pattern_free_cons in Hp. rewrite apply_table_cons.
  destruct (occursb rule.1 s) eqn:Ho.
  - apply occursb_spec in Ho.
    pose proof (foreign_replace_lt s rule.1 rule.2 Hnew Hold Ho) as Hlt.
    pose proof (sublist_length _ _
      (foreign_apply_table table (replace s rule.1 rule.2) Hok)) as Hle.
    lia.
  - apply occursb_false in Ho. rewrite replace_absent by exact Ho.
    apply IH; [exact Hok | exact Hp].
Qed.

Lemma apply_table_fixed table s :
  rules_ok table = true →
  (apply_table table s = s ↔ pattern_free table s = true).
Proof.
  intros Hok. split; [|apply apply_table_pattern_free].
  intros Heq. destruct (pattern_free table s) eqn:Hp; [done|].
  pose proof (apply_table_removes table s Hok Hp) as Hlt.
  rewrite Heq in Hlt. lia.
Qed.

Lemma translations_rules_ok : rules_ok translations = true.
Proof. vm_compute. reflexivity. Qed.

(** ** Shadowed rules *)

Lemma all_foreign_spec p :
  all_foreign p = true → p ≠ [] ∧ forallb (λ c, negb (is_ascii c)) p = true.
Proof. by destruct p. Qed.

Lemma occurs_prefix_or p c t :
  occurs p (c :: t) → p `prefix_of` (c :: t) ∨ occurs p t.
Proof.
  intros (l & r & Heq). destruct l as [|c' l].
  - left. by exists r.
  - right. injection Heq as -> ->. by exists l, r.
Qed.

Lemma prefix_occurs p s : p `prefix_of` s → occurs p s.
Proof. intros [r ->]. by exists [], r. Qed.

Lemma occurs_trans k p s : occurs k p → occurs p s → occurs k s.
Proof.
  intros (l1 & r1 & ->) (l2 & r2 & ->). exists (l2 ++ l1), (r1 ++ r2).
  by rewrite <- !(assoc_L (++)).
Qed.

Lemma occurs_app_r p l s : occurs p s → occurs p (l ++ s).
Proof.
  intros (l' & r & ->). exists (l ++ l'), r. by rewrite <- !(assoc_L (++)).
Qed.

(** A text without ASCII that starts the result of a replacement by a
    non-empty ASCII text starts the original text. *)
Lemma foreign_prefix_replace s old new :
  old ≠ [] → new ≠ [] → ascii_only new = true →
  ∀ p, forallb (λ c, negb (is_ascii c)) p = true →
       p `prefix_of` replace s old new → p `prefix_of` s.
Proof.
  intros Hold Hne Hnew.
  apply (replace_ind (λ s r, ∀ p, forallb (λ c, negb (is_ascii c)) p = true →
                                  p `prefix_of` r → p `prefix_of` s)); [done| | |].
  - intros p _ ->%prefix_nil_inv. apply prefix_nil.
  - intros rest _ [|a p] Hp Hpre; [apply prefix_nil|].
    destruct new as [|n new]; [done|]. cbn [app] in Hpre.
    apply prefix_cons_inv_1 in Hpre as ->.
    cbn [forallb ascii_only] in Hp, Hnew.
    apply andb_true_iff in Hp as [Hp _]. apply andb_true_iff in Hnew as [Hn _].
    rewrite Hn in Hp. discriminate.
  - intros c t _ IH [|a p] Hp Hpre; [apply prefix_nil|].
    pose proof (prefix_cons_inv_1 _ _ _ _ Hpre) as ->.
    apply prefix_cons_inv_2 in Hpre. cbn [forallb] in Hp.
    apply andb_true_iff in Hp as [_ Hp]. by apply prefix_cons, IH.
Qed.

Lemma foreign_occurs_app p new t :
  all_foreign p = true → ascii_only new = true →
  occurs p (new ++ t) → occurs p t.
Proof.
  intros [Hne Hp]%all_foreign_spec Hnew.
  induction new as [|n new IH]; [done|]. cbn [app]. intros Hocc.
  cbn [ascii_only forallb] in Hnew. apply andb_true_iff in Hnew as [Hn Hnew].
  apply occurs_prefix_or in Hocc as [Hpre|Hocc]; [|by apply IH].
  destruct p as [|a p]; [done|].
  apply prefix_cons_inv_1 in Hpre as ->. cbn [forallb] in Hp.
  apply andb_true_iff in Hp as [Hp _]. rewrite Hn in Hp. discriminate.
Qed.

(** A text without ASCII that does not occur in a text does not occur in
    it after a replacement by a non-empty ASCII text. *)
Lemma foreign_occurs_replace p s old new :
  all_foreign p = true → old ≠ [] → new ≠ [] → ascii_only new = true →
  occurs p (replace s old new) → occurs p s.
Proof.
  intros Hp Hold Hne Hnew. pose proof (all_foreign_spec p Hp) as [_ Hchars].
  revert s.
  apply (replace_ind (λ s r, occurs p r → occurs p s) old new); [done|done| |].
  - intros rest IH Hocc.
    apply foreign_occurs_app in Hocc; [|done|done].
    by apply occurs_app_r, IH.
  - intros c t Hno IH Hocc.
    apply occurs_prefix_or in Hocc as [Hpre|Hocc].
    + rewrite <- (replace_skip old new c t) in Hpre by done.
      by apply prefix_occurs, (foreign_prefix_replace _ old new).
    + by apply occurs_cons, IH.
Qed.

(** After the replacement of a pattern without ASCII by a non-empty ASCII
    text the pattern occurs no more. *)
Lemma foreign_pattern_gone s old new :
  all_foreign old = true → new ≠ [] → ascii_only new = true →
  ¬ occurs old (replace s old new).
Proof.
  intros Hp Hne Hnew. pose proof (all_foreign_spec old Hp) as [Hold Hchars].
  revert s.
  apply (replace_ind (λ s r, ¬ occurs old r) old new); [done| | |].
  - intros (l & r & Heq). by destruct l, old.
  - intros rest IH Hocc. by apply foreign_occurs_app in Hocc.
  - intros c t Hno IH Hocc.
    apply occurs_prefix_or in Hocc as [Hpre|Hocc]; [|done].
    rewrite <- (replace_skip old new c t) in Hpre by done.
    apply (foreign_prefix_replace _ old new) in Hpre; [|done..].
    destruct Hpre as [r Heq].
    by apply strip_prefix_None_absent with (rest := r) in Hno.
Qed.

Lemma ascii_only_false_ne s : ascii_only s = false → s ≠ [].
Proof. by intros H ->. Qed.

Lemma absent_stays table k s :
  rules_ok table = true → all_foreign k = true →
  ¬ occurs k s → ¬ occurs k (apply_table table s).
Proof.
  revert s. induction table as [|rule table IH]; intros s Hok Hk Hno; [done|].
  apply rules_ok_cons in Hok as [(Hold & Hne & Hnew) Hok].
  rewrite apply_table_cons. apply IH; [done|done|].
  intros Hocc. apply Hno.
  by apply (foreign_occurs_replace k s rule.1 rule.2);
    [|apply ascii_only_false_ne|..].
Qed.

(** After its turn, a pattern without ASCII stays away. *)
Lemma absent_after table rule s :
  rules_ok table = true → rule ∈ table → all_foreign rule.1 = true →
  ¬ occurs rule.1 (apply_table table s).
Proof.
  revert s. induction table as [|rule' table IH]; intros s Hok Hin Hk.
  { by apply elem_of_nil in Hin. }
  pose proof (rules_ok_cons _ _ Hok) as [(Hold & Hne & Hnew) Hok'].
  rewrite apply_table_cons. apply elem_of_cons in Hin as [->|Hin].
  - apply absent_stays; [done|done|]. by apply foreign_pattern_gone.
  - by apply IH.
Qed.

Lemma shadows_foreign_split seen before rule after k :
  shadows_foreign seen (before ++ rule :: after) = true →
  k ∈ seen ∨ k ∈ before.*1 → occurs k rule.1 → all_foreign k = true.
Proof.
  revert seen. induction before as [|rule' before IH]; intros seen Hs Hin Hocc.
  - cbn [app shadows_foreign] in Hs. apply andb_true_iff in Hs as [Hs _].
    destruct Hin as [Hin|Hin]; [|by apply elem_of_nil in Hin].
    rewrite forallb_forall in Hs. apply list_elem_of_In, Hs in Hin.
    apply occursb_spec in Hocc. by rewrite Hocc in Hin.
  - cbn [app shadows_foreign] in Hs. apply andb_true_iff in Hs as [_ Hs].
    apply (IH (rule'.1 :: seen)); [done| |done].
    destruct Hin as [Hin|Hin]; [left; by right|].
    cbn [fmap list_fmap] in Hin. apply elem_of_cons in Hin as [->|Hin].
    + left. by left.
    + by right.
Qed.

Lemma rules_ok_app before after :
  rules_ok (before ++ after) = true →
  rules_ok before = true ∧ rules_ok after = true.
Proof. unfold rules_ok. rewrite forallb_app. apply andb_true_iff. Qed.

Lemma translations_shadows_foreign : shadows_foreign [] translations = true.
Proof. vm_compute. reflexivity. Qed.

(** ** What the table does to every text *)

(** X2.  The table adds no character that is not ASCII: the characters of
    that kind in the transformed text are characters of the original, in
    the same order. *)
Theorem transform_adds_no_foreign (s : text) :
  foreign (transform s) `sublist_of` foreign s
  ∧ (length (foreign (transform s)) ≤ length (foreign s))%nat.
Proof.
  assert (foreign (transform s) `sublist_of` foreign s) as H.
  { apply foreign_apply_table, translations_rules_ok. }
  split; [exact H | by apply sublist_length].
Qed.

(** X1.  The table changes a text if and only if one of its patterns occurs
    in the text; a change removes at least one character that is not
    ASCII, so that no chain of rules leads back to the original. *)
Theorem transform_changes_iff_pattern (s : text) :
  (transform s = s ↔ pattern_free translations s = true)
  ∧ (transform s ≠ s ↔
     (length (foreign (transform s)) < length (foreign s))%nat).
Proof.
  pose proof (apply_table_fixed translations s translations_rules_ok) as Hiff.
  split; [exact Hiff|]. split.
  - intros Hne. apply apply_table_removes; [apply translations_rules_ok|].
    destruct (pattern_free translations s) eqn:Hp; [|reflexivity].
    exfalso. apply Hne, Hiff. reflexivity.
  - intros Hlt Heq. rewrite Heq in Hlt. lia.
Qed.

Lemma ascii_only_app s t :
  ascii_only (s ++ t) = ascii_only s && ascii_only t.
Proof. apply forallb_app. Qed.

Lemma ascii_pattern_free table s :
  rules_ok table = true → ascii_only s = true → pattern_free table s = true.
Proof.
  intros Hok Hs. induction table as [|rule table IH]; [done|].
  apply rules_ok_cons in Hok as [(Hold & _ & _) Hok].
  rewrite pattern_free_cons, IH by exact Hok. rewrite andb_true_r.
  apply negb_true_iff, occursb_false. intros (l & r & ->).
  rewrite !ascii_only_app in Hs.
  apply andb_true_iff in Hs as [_ [Hs _]%andb_true_iff]. congruence.
Qed.

(** X3.  A text of ASCII characters only, the empty text among them, is left
    as it is, and so is a file with such a content: its iteration
    changes nothing. *)
Theorem ascii_text_unchanged (s : text) :
  ascii_only s = true →
  transform s = s
  ∧ ∀ (f : path) (st : state) (fl : file),
      fs st !! f = Some fl → read_result fl = inr s → step st f = st.
Proof.
  intros Hs.
  assert (pattern_free translations s = true) as Hp.
  { apply ascii_pattern_free; [apply translations_rules_ok | exact Hs]. }
  split; [by apply apply_table_pattern_free|].
  intros f st fl Hf Hr. apply step_unchanged. unfold outcome_of. rewrite Hf.
  by apply classify_pattern_free with (original := s).
Qed.

(** A Kotlin file without Japanese text, and the empty file. *)
Lemma ascii_text_unchanged_kotlin :
  ascii_only (u"fun main() { println(42) }") = true
  ∧ transform (u"fun main() { println(42) }") = u"fun main() { println(42) }"
  ∧ ascii_only [] = true
  ∧ transform [] = [].
Proof.
  assert (ascii_only (u"fun main() { println(42) }") = true) as H1.
  { vm_compute. reflexivity. }
  assert (ascii_only [] = true) as H2 by reflexivity.
  split; [exact H1|]. split.
  - exact (proj1 (ascii_text_unchanged (u"fun main() { println(42) }") H1)).
  - split; [exact H2|]. exact (proj1 (ascii_text_unchanged [] H2)).
Defined.

(** X4.  A rule whose pattern contains the pattern of an earlier rule never
    applies: at its turn the earlier rule has removed what it looks for,
    and on every text the table does what it does without that rule. *)
Theorem shadowed_rule_never_applies (before after : list (text * text))
    (rule earlier : text * text) (s : text) :
  translations = before ++ rule :: after →
  earlier ∈ before → occurs earlier.1 rule.1 →
  ¬ occurs rule.1 (apply_table before s)
  ∧ replace (apply_table before s) rule.1 rule.2 = apply_table before s
  ∧ transform s = apply_table (before ++ after) s.
Proof.
  intros Hsplit Hin Hocc.
  pose proof translations_rules_ok as Hok. rewrite Hsplit in Hok.
  apply rules_ok_app in Hok as [Hbefore _].
  pose proof translations_shadows_foreign as Hsh. rewrite Hsplit in Hsh.
  assert (all_foreign earlier.1 = true) as Hforeign.
  { apply (shadows_foreign_split [] before rule after); [exact Hsh| |exact Hocc].
    right. by apply list_elem_of_fmap_2. }
  assert (¬ occurs rule.1 (apply_table before s)) as Hno.
  { intros H. apply (absent_after before earlier s Hbefore Hin Hforeign).
    by apply occurs_trans with (p := rule.1). }
  split; [exact Hno|].
  assert (replace (apply_table before s) rule.1 rule.2 = apply_table before s)
    as Hsame by (apply replace_absent; exact Hno).
  split; [exact Hsame|].
  unfold transform. rewrite Hsplit, !apply_table_app, apply_table_cons.
  by rewrite Hsame.
Qed.

(** The rule for [アンインストール] comes after the rule for [インストール]:
    the text becomes [アンInstall], not [Uninstall]. *)
Lemma shadowed_rule_uninstall :
  translations
  = take 43 translations
    ++ (u"アンインストール", u"Uninstall") :: drop 44 translations
  ∧ (u"インストール", u"Install") ∈ take 43 translations
  ∧ occurs (u"インストール") (u"アンインストール")
  ∧ transform (u"アンインストール")
    = apply_table (take 43 translations ++ drop 44 translations)
        (u"アンインストール")
  ∧ transform (u"アンインストール") = u"アンInstall".
Proof.
  assert (translations
          = take 43 translations
            ++ (u"アンインストール", u"Uninstall") :: drop 44 translations)
    as Hsplit.
  { vm_compute. reflexivity. }
  assert ((u"インストール", u"Install") ∈ take 43 translations) as Hin.
  { by_compute. }
  assert (occurs (u"インストール") (u"アンインストール")) as Hocc.
  { apply occursb_spec. vm_compute. reflexivity. }
  split; [exact Hsplit|]. split; [exact Hin|]. split; [exact Hocc|]. split.
  - exact (proj2 (proj2 (shadowed_rule_never_applies _ _
             (u"アンインストール", u"Uninstall") (u"インストール", u"Install")
             (u"アンインストール") Hsplit Hin Hocc))).
  - vm_compute. reflexivity.
Defined.

(** X6.  The iteration of a readable file leaves the state as it is if and
    only if no pattern occurs in the file; otherwise it calls
    [write_text] with the transformed content. *)
Theorem file_left_alone_iff (f : path) (st : state) (fl : file)
    (original : text) :
  fs st !! f = Some fl → read_result fl = inr original →
  (step st f = st ↔ pattern_free translations original = true)
  ∧ (pattern_free translations original = false →
     written (step st f) = written st ++ [(f, transform original)]).
Proof.
  intros Hf Hr.
  assert (transform original = original
          ↔ pattern_free translations original = true) as Hiff.
  { exact (apply_table_fixed translations original translations_rules_ok). }
  assert (pattern_free translations original = false →
          written (step st f) = written st ++ [(f, transform original)])
    as Hwrite.
  { intros Hp. rewrite step_effect. unfold outcome_of, classify.
    rewrite Hf, Hr. rewrite bool_decide_true.
    - by destruct (write_error fl).
    - intros Heq. apply (proj1 Hiff) in Heq. rewrite Hp in Heq.
      discriminate Heq. }
  split; [|exact Hwrite]. split.
  - intros Hstep. destruct (pattern_free translations original) eqn:Hp;
      [reflexivity|].
    specialize (Hwrite eq_refl). rewrite Hstep in Hwrite.
    apply (f_equal length) in Hwrite. rewrite length_app in Hwrite.
    cbn [length] in Hwrite. lia.
  - intros Hp. apply step_unchanged. unfold outcome_of. rewrite Hf.
    by apply classify_pattern_free with (original := original).
Qed.

(** A file with one pattern: its iteration calls [write_text]. *)
Lemma file_left_alone_iff_home :
  fs (init two_store) !! home_kt = Some (File (inr (u"Text(準備完了)")) None)
  ∧ pattern_free translations (u"Text(準備完了)") = false
  ∧ written (step (init two_store) home_kt) = [(home_kt, u"Text(Ready)")].
Proof.
  assert (fs (init two_store) !! home_kt
          = Some (File (inr (u"Text(準備完了)")) None)) as Hf.
  { vm_compute. reflexivity. }
  assert (pattern_free translations (u"Text(準備完了)") = false) as Hp.
  { vm_compute. reflexivity. }
  split; [exact Hf|]. split; [exact Hp|].
  rewrite (proj2 (file_left_alone_iff home_kt (init two_store) _ _ Hf eq_refl) Hp).
  vm_compute. reflexivity.
Defined.

(** ** Which files the program touches *)

Lemma name_snoc (d : path) (n : text) : name (d ++ [n]) = n.
Proof. unfold name. by rewrite last_snoc. Qed.

Lemma reachable_nil e : reachable e [] = false.
Proof. by destruct e as [|nm [] es]. Qed.

(** The walk yields exactly the paths that lead through directories that
    can be listed to a name matching [*.kt]. *)
Lemma walk_reachable e : ∀ d p,
  p ∈ walk d e ↔ ∃ q, p = d ++ q ∧ reachable e q = true.
Proof.
  induction e as [nm|nm listable es IH] using entry_rect_nested; intros d p.
  { split; [by intros ?%elem_of_nil | by intros (q & _ & ?)]. }
  destruct listable.
  2:{ split; [by intros ?%elem_of_nil | by intros (q & _ & ?)]. }
  rewrite Forall_forall in IH. cbn [walk]. rewrite elem_of_app. split.
  - intros [Hp|Hp].
    + unfold select in Hp.
      apply list_elem_of_fmap in Hp as (c & -> & [Hkt Hc]%list_elem_of_filter).
      exists [entry_name c]. split; [done|]. cbn [reachable].
      apply existsb_exists. exists c. split; [by apply list_elem_of_In|].
      by rewrite bool_decide_true, Hkt.
    + apply elem_of_flat_map in Hp as (c & Hc & Hp).
      apply IH in Hp as (q & -> & Hq); [|done].
      exists (entry_name c :: q). split; [by rewrite <- (assoc_L (++))|].
      cbn [reachable]. apply existsb_exists. exists c.
      split; [by apply list_elem_of_In|]. rewrite bool_decide_true by done.
      destruct q as [|n q]; [by rewrite reachable_nil in Hq | done].
  - intros (q & -> & Hq). destruct q as [|n q]; [done|].
    cbn [reachable] in Hq. apply existsb_exists in Hq as (c & Hc & Hq).
    apply list_elem_of_In in Hc.
    apply andb_true_iff in Hq as [Hn Hq]. apply bool_decide_eq_true in Hn.
    destruct q as [|n' q].
    + left. unfold select. apply list_elem_of_fmap. exists c.
      split; [by rewrite Hn|]. apply list_elem_of_filter. by rewrite Hn.
    + right. apply elem_of_flat_map. exists c. split; [done|].
      apply IH; [done|]. exists (n' :: q). rewrite Hn.
      split; [by rewrite <- (assoc_L (++))|done].
Qed.


(** The paths on which [write_text] is called are walked paths, in walk
    order, each at most once per time it is walked; every entry of
    [updated] is the name of one of them; and an iteration prints or
    reports at most one line. *)
Lemma loop_trace files st :
  ∃ upd wr out,
    updated (foldl step st files) = updated st ++ upd
    ∧ written (foldl step st files) = written st ++ wr
    ∧ stdout (foldl step st files) = stdout st ++ out
    ∧ wr.*1 `sublist_of` files
    ∧ upd `sublist_of` map name wr.*1
    ∧ (length upd + length out ≤ length files)%nat.
Proof.
  revert st. induction files as [|f files IH]; intros st.
  { exists [], [], []. by rewrite !app_nil_r. }
  cbn [foldl].
  destruct (IH (step st f)) as (upd & wr & out & -> & -> & -> & Hw & Hu & Hl).
  rewrite step_effect. cbn [effect updated written stdout].
  exists (updated_of (name f) (outcome_of (fs st) f) ++ upd),
         (written_of f (outcome_of (fs st) f) ++ wr),
         (stdout_of (name f) (outcome_of (fs st) f) ++ out).
  rewrite <- !(assoc_L (++)). split; [done|]. split; [done|]. split; [done|].
  destruct (outcome_of (fs st) f); cbn [updated_of written_of stdout_of app];
    cbn [fmap list_fmap fst map length].
  - split; [by apply sublist_cons|]. split; [done|]. cbn [length]. lia.
  - split; [by apply sublist_skip|]. split; [by apply sublist_skip|].
    cbn [length]. lia.
  - split; [by apply sublist_cons|]. split; [done|]. cbn [length]. lia.
  - split; [by apply sublist_skip|]. split; [by apply sublist_cons|].
    cbn [length]. lia.
Qed.

Lemma step_dom st f : dom (fs (step st f)) = dom (fs st).
Proof.
  rewrite step_effect. cbn [effect fs]. unfold outcome_of, classify.
  destruct (fs st !! f) as [fl|] eqn:Hf; [|done].
  destruct (read_result fl) as [e|original]; [done|].
  case_bool_decide; [|done]. destruct (write_error fl); [done|].
  cbn [fs_of]. apply dom_insert_lookup_L. by rewrite Hf.
Qed.

Lemma loop_dom files st : dom (fs (foldl step st files)) = dom (fs st).
Proof.
  revert st. induction files as [|f files IH]; intros st; [done|].
  cbn [foldl]. by rewrite IH, step_dom.
Qed.

Lemma rglob_reachable_iff base f : f ∈ rglob base ↔ reachable base f = true.
Proof.
  unfold rglob. rewrite walk_reachable. split.
  - by intros (q & -> & Hq).
  - intros Hq. by exists f.
Qed.

(** ** Extra properties of the run *)


(** X8.  A file that the walk does not reach (its name does not end in [.kt],
    or it lies below a directory that cannot be listed, or outside the
    tree) is as it was after the run, and [write_text] is never called on
    it. *)
Theorem unreached_file_untouched (base : entry) (store : filesystem) (p : path) :
  reachable base p = false →
  fs (run base store) !! p = store !! p
  ∧ ∀ data, (p, data) ∉ written (run base store).
Proof.
  intros Hno.
  assert (p ∉ rglob base) as Hnotin.
  { intros Hin%rglob_reachable_iff. congruence. }
  rewrite run_rglob. unfold run_from. rewrite main_from_spec. cbn [snd fs written].
  split.
  - by rewrite loop_fs_other.
  - intros data Hin. apply loop_written in Hin as [Hin|Hin].
    + by apply elem_of_nil in Hin.
    + exact (Hnotin Hin).
Qed.

(** A file walked by nothing: a file that is not Kotlin, with a pattern
    in it. *)
Lemma unreached_file_untouched_readme :
  reachable mixed_tree [u"README.md"] = false
  ∧ fs (run mixed_tree mixed_store) !! [u"README.md"]
    = mixed_store !! [u"README.md"]
  ∧ reachable mixed_tree [u"secret"; u"Hidden.kt"] = false
  ∧ fs (run mixed_tree mixed_store) !! [u"secret"; u"Hidden.kt"]
    = mixed_store !! [u"secret"; u"Hidden.kt"].
Proof.
  assert (reachable mixed_tree [u"README.md"] = false) as H1.
  { vm_compute. reflexivity. }
  assert (reachable mixed_tree [u"secret"; u"Hidden.kt"] = false) as H2.
  { vm_compute. reflexivity. }
  split; [exact H1|]. split.
  - exact (proj1 (unreached_file_untouched mixed_tree mixed_store _ H1)).
  - split; [exact H2|].
    exact (proj1 (unreached_file_untouched mixed_tree mixed_store _ H2)).
Defined.

(** X9.  The run creates no file and deletes none: the paths at which there
    is a file are the same before and after, whatever is walked. *)
Theorem no_file_created_or_deleted (files : list path) (store : filesystem) :
  dom (fs (run_from files store)) = dom store
  ∧ ∀ p, is_Some (fs (run_from files store) !! p) ↔ is_Some (store !! p).
Proof.
  assert (dom (fs (run_from files store)) = dom store) as Hdom.
  { rewrite fs_run_from. by rewrite loop_dom. }
  split; [exact Hdom|]. intros p. by rewrite <- !elem_of_dom, Hdom.
Qed.

(** X10.  [write_text] is called on walked paths only, in walk order and at
    most once for each time a path is walked; every entry of the report
    is the name of a path on which it was called; and the program prints
    at most one line per walked path besides the line with the count. *)
Theorem writes_follow_walk (files : list path) (store : filesystem) :
  (written (run_from files store)).*1 `sublist_of` files
  ∧ updated (run_from files store)
    `sublist_of` map name (written (run_from files store)).*1
  ∧ (length (stdout (run_from files store)) ≤ S (length files))%nat.
Proof.
  unfold run_from. rewrite main_from_spec. cbn [snd updated written stdout].
  destruct (loop_trace files (init store))
    as (upd & wr & out & -> & -> & -> & Hw & Hu & Hl).
  cbn [init updated written stdout app].
  split; [exact Hw|]. split; [exact Hu|].
  rewrite length_app. cbn [length]. rewrite length_map. lia.
Qed.



(** X12.  When the walk yields nothing (the base is not a directory or cannot
    be listed, or no name below it ends in [.kt]) the program prints the
    line with the count zero and nothing else, and touches no file. *)
Theorem nothing_to_walk (base : entry) (store : filesystem) :
  rglob base = [] →
  main base (init store)
  = (Ok tt, State store [] [u"Updated 0 files"] []).
Proof.
  intros H. unfold main. rewrite H, main_from_spec. reflexivity.
Qed.

(** A base that cannot be listed, and a base that is a file. *)
Lemma nothing_to_walk_locked :
  rglob (EDir [] false [EFile (u"Hidden.kt")]) = []
  ∧ rglob (EFile (u"presentation")) = []
  ∧ stdout (run (EDir [] false [EFile (u"Hidden.kt")]) locked_store)
    = [u"Updated 0 files"].
Proof.
  split; [reflexivity|]. split; [reflexivity|].
  unfold run.
  by rewrite (nothing_to_walk (EDir [] false [EFile (u"Hidden.kt")])
                locked_store eq_refl).
Defined.

Lemma foreign_nil_ascii s : foreign s = [] → ascii_only s = true.
Proof.
  induction s as [|c s IH]; [done|]. rewrite foreign_cons.
  cbn [ascii_only forallb]. destruct (is_ascii c); [|done].
  cbn [app andb]. exact IH.
Qed.

Lemma passes_of_fixed s k : transform s = s → Nat.iter k transform s = s.
Proof.
  intros Heq. induction k as [|k IH]; [done|]. by rewrite Nat.iter_succ, IH.
Qed.

Lemma passes_fixed (n : nat) : ∀ s,
  (length (foreign s) ≤ n)%nat →
  transform (Nat.iter n transform s) = Nat.iter n transform s.
Proof.
  induction n as [|n IH]; intros s Hlen.
  - change (Nat.iter 0 transform s) with s. apply apply_table_pattern_free.
    apply ascii_pattern_free; [apply translations_rules_ok|].
    apply foreign_nil_ascii. destruct (foreign s); [done|].
    cbn [length] in Hlen. lia.
  - destruct (pattern_free translations s) eqn:Hp.
    + assert (transform s = s) as Heq by by apply apply_table_pattern_free.
      by rewrite passes_of_fixed.
    + rewrite Nat.iter_succ_r. apply IH.
      pose proof (apply_table_removes translations s translations_rules_ok Hp).
      unfold transform. lia.
Qed.

(** X5.  Passes of the table over a text come to rest: after as many passes
    as the text has characters that are not ASCII, one more pass changes
    nothing, and neither does any number of further passes. *)
Theorem repeated_passes_come_to_rest (s : text) (k : nat) :
  Nat.iter (k + length (foreign s)) transform s
  = Nat.iter (length (foreign s)) transform s.
Proof.
  induction k as [|k IH]; [done|]. cbn [Nat.add]. rewrite Nat.iter_succ, IH.
  by apply passes_fixed.
Qed.
